(** * fetch-retrier: retry, per-attempt timeout and full-jitter backoff

    A shallow embedding of [src/index.ts].  The asynchronous function
    [fetchRetrier] is written in a small state-and-exception monad: the state
    is the observable history of the call (which collaborators were invoked,
    in which order, with which arguments), exceptions are JavaScript [throw]s.
    The collaborators the source does not own (the global [fetch], the body
    reader [res.text()], a caller-supplied [shouldRetry], [Math.random]) are
    oracles of an environment.

    Numbers.  [retries], [attempt], [status], [timeoutMs] and [baseBackoffMs]
    are TypeScript [number]s that hold integer counts and millisecond values;
    they are integers ([Z]) here.  [Math.random() * cap] is computed over the
    rationals ([Q]), i.e. the doubles of the source are idealised as exact
    numbers; [Math.floor] is [Qfloor]. *)

From Stdlib Require Import ZArith QArith Qround Qpower.
From Stdlib Require Import String Ascii DecimalString List Bool Lia.
From Stdlib Require Import DecimalZ Lqa.
Import ListNotations.

Local Open Scope Z_scope.

(** ** Values *)

(** What [instanceof] can tell about a thrown value: not an [Error] at all
    (JavaScript may throw anything), a plain [Error], a [TypeError], or an
    instance of some other subclass of [Error] (a [DOMException], say). *)
Inductive ErrorClass : Type :=
| NotAnError
| PlainError
| TypeErrorClass
| OtherErrorClass.

(** A value raised by a collaborator: its class, its [name] and [message]. *)
Record Exn : Type := mkExn {
  proto : ErrorClass;
  name : string;
  message : string
}.

Definition instanceofError (e : Exn) : bool :=
  match proto e with
  | NotAnError => false
  | _ => true
  end.

Definition instanceofTypeError (e : Exn) : bool :=
  match proto e with
  | TypeErrorClass => true
  | _ => false
  end.

(** A settled promise, or the completion of a synchronous call that may
    throw. *)
Inductive Settled (A : Type) : Type :=
| Fulfilled (a : A)
| Rejected (e : Exn).
Arguments Fulfilled {A} a.
Arguments Rejected {A} e.

(** The part of a [Response] that [fetchRetrier] looks at: the [ok] flag, the
    [status] and what [await res.text()] yields when the body is read. *)
Record Response : Type := mkResponse {
  ok : bool;
  status : Z;
  text : Settled string
}.

Definition Headers : Type := list (string * string).

(** [interface RequestOptions]; an absent optional field is [None]. *)
Record RequestOptions : Type := mkOptions {
  headers : option Headers;
  retries : Z;
  timeoutMs : Z;
  baseBackoffMs : Z;
  shouldRetry : option (Response -> string -> Settled bool)
}.

(** [[429, 500, 502, 503, 504].includes(res.status)] *)
Definition defaultShouldRetry (res : Response) : bool :=
  existsb (Z.eqb (status res)) [429; 500; 502; 503; 504].

(** The destructuring default [shouldRetry = defaultShouldRetry]. *)
Definition shouldRetryOf (options : RequestOptions)
  : Response -> string -> Settled bool :=
  match shouldRetry options with
  | Some f => f
  | None => fun res _ => Fulfilled (defaultShouldRetry res)
  end.

(** What [fetchRetrier] can throw: an [Error] it builds itself with
    [new Error(msg)], or the very value a collaborator raised. *)
Inductive Thrown : Type :=
| NewError (msg : string)
| Caught (e : Exn).

(** The object the [catch] clause inspects. *)
Definition thrownValue (err : Thrown) : Exn :=
  match err with
  | NewError msg => mkExn PlainError "Error" msg
  | Caught e => e
  end.

(** [err instanceof Error && err.name === 'AbortError'] *)
Definition isAbortError (err : Thrown) : bool :=
  instanceofError (thrownValue err)
  && String.eqb (name (thrownValue err)) "AbortError".

(** [err instanceof TypeError] *)
Definition isTypeError (err : Thrown) : bool :=
  instanceofTypeError (thrownValue err).

(** The template literal [`${n}`] of an integer. *)
Definition showZ (n : Z) : string := NilZero.string_of_int (Z.to_int n).

(** ** The observable history of one call *)

Inductive Event : Type :=
| SetTimeout (ms : Z)
| Fetch (url : string) (hdrs : option Headers)
| ClearTimeout
| Text (res : Response)
| ShouldRetry (res : Response) (body : string)
| Wait (ms : Z).

(** [calls] counts the invocations of [fetch], [draws] those of
    [Math.random]; [log] lists the events, oldest first. *)
Record World : Type := mkWorld {
  calls : nat;
  draws : nat;
  log : list Event
}.

Definition start : World := mkWorld 0 0 [].

Definition isFetch (e : Event) : bool :=
  match e with Fetch _ _ => true | _ => false end.

Definition isWait (e : Event) : bool :=
  match e with Wait _ => true | _ => false end.

(** Number of transport invocations, and of backoff delays, in a history. *)
Definition invocations (l : list Event) : nat := length (filter isFetch l).
Definition delays (l : list Event) : nat := length (filter isWait l).

(** The collaborators: [fetch k url hdrs] is what the [k]-th invocation of
    the transport settles to (the abort signal of the attempt is part of the
    oracle: an attempt that outlives [timeoutMs] settles to a rejection);
    [random k] is the [k]-th value of [Math.random()]. *)
Record Env : Type := mkEnv {
  fetch : nat -> string -> option Headers -> Settled Response;
  random : nat -> Q
}.

(** ** The monad: state passing with [throw] *)

Inductive Completion (A : Type) : Type :=
| Normal (a : A)
| Throw (err : Thrown).
Arguments Normal {A} a.
Arguments Throw {A} err.

Definition M (A : Type) : Type := World -> Completion A * World.

Definition ret {A} (a : A) : M A := fun w => (Normal a, w).

Definition throw {A} (err : Thrown) : M A := fun w => (Throw err, w).

Definition bind {A B} (c : M A) (k : A -> M B) : M B :=
  fun w =>
    match c w with
    | (Normal a, w') => k a w'
    | (Throw err, w') => (Throw err, w')
    end.

(** [try { c } catch (err) { h err }] *)
Definition tryCatch {A} (c : M A) (h : Thrown -> M A) : M A :=
  fun w =>
    match c w with
    | (Normal a, w') => (Normal a, w')
    | (Throw err, w') => h err w'
    end.

Notation "x <- c ;; k" := (bind c (fun x => k))
  (at level 61, c at next level, right associativity).
Notation "c ;;; k" := (bind c (fun _ => k))
  (at level 61, right associativity).

Definition emit (e : Event) : M unit :=
  fun w => (Normal tt, mkWorld (calls w) (draws w) (log w ++ [e])).

(** [await] of a settled promise. *)
Definition await {A} (s : Settled A) : M A :=
  match s with
  | Fulfilled a => ret a
  | Rejected e => throw (Caught e)
  end.

(** ** The helpers of [index.ts] *)

(** [Math.floor(rnd * (base * Math.pow(2, attempt)))], for [rnd] the value
    [Math.random()] returned. *)
Definition jitter (rnd : Q) (base attempt : Z) : Z :=
  let cap := (inject_Z base * (2 # 1) ^ attempt)%Q in
  Qfloor (rnd * cap).

Section Executor.

Variable env : Env.

Definition mathRandom : M Q :=
  fun w => (Normal (random env (draws w)),
            mkWorld (calls w) (S (draws w)) (log w)).

(** [fullJitter(base, attempt)] *)
Definition fullJitter (base attempt : Z) : M Z :=
  rnd <- mathRandom ;;
  ret (jitter rnd base attempt).

(** [wait(ms)]: resolves once the timer has fired; it never rejects. *)
Definition wait (ms : Z) : M unit := emit (Wait ms).

Definition setTimeout (ms : Z) : M unit := emit (SetTimeout ms).
Definition clearTimeout : M unit := emit ClearTimeout.

(** [await fetch(url, { headers, signal })] *)
Definition awaitFetch (url : string) (hdrs : option Headers) : M Response :=
  fun w =>
    let w' := mkWorld (S (calls w)) (draws w) (log w ++ [Fetch url hdrs]) in
    match fetch env (calls w) url hdrs with
    | Fulfilled res => (Normal res, w')
    | Rejected e => (Throw (Caught e), w')
    end.

(** [await res.text()] *)
Definition awaitText (res : Response) : M string :=
  emit (Text res) ;;;
  await (text res).

(** [shouldRetry(res, text)] *)
Definition callShouldRetry (options : RequestOptions) (res : Response)
    (body : string) : M bool :=
  emit (ShouldRetry res body) ;;;
  await (shouldRetryOf options res body).

(** ** [fetchRetrier] *)

(** How one turn of the [for] loop ends when nothing is thrown. *)
Inductive Flow : Type :=
| Return (res : Response)
| NextAttempt.

(** Lines 34-55: the [try] block. *)
Definition tryBlock (url : string) (options : RequestOptions) (attempt : Z)
  : M Flow :=
  res <- awaitFetch url (headers options) ;;
  clearTimeout ;;;
  if ok res then ret (Return res)
  else
    body <- awaitText res ;;
    isContinue <- callShouldRetry options res body ;;
    if isContinue then
      if attempt =? retries options
      then throw (NewError ("HTTP " ++ showZ (status res)))
      else
        ms <- fullJitter (baseBackoffMs options) attempt ;;
        wait ms ;;;
        ret NextAttempt
    else
      throw (NewError ("Non-retriable HTTP error: " ++ showZ (status res))).

(** Lines 56-72: the [catch] clause. *)
Definition catchBlock (options : RequestOptions) (attempt : Z) (err : Thrown)
  : M Flow :=
  clearTimeout ;;;
  if isAbortError err then
    if attempt =? retries options then throw err
    else
      ms <- fullJitter (baseBackoffMs options) attempt ;;
      wait ms ;;;
      ret NextAttempt
  else if isTypeError err then
    if attempt =? retries options then throw err
    else
      ms <- fullJitter (baseBackoffMs options) attempt ;;
      wait ms ;;;
      ret NextAttempt
  else throw err.

(** Lines 30-72: the body of the [for] loop. *)
Definition iteration (url : string) (options : RequestOptions) (attempt : Z)
  : M Flow :=
  setTimeout (timeoutMs options) ;;;
  tryCatch (tryBlock url options attempt) (catchBlock options attempt).

(** Lines 29-75: [for (attempt; attempt <= retries; attempt++)] followed by
    [throw new Error('Unreachable')].  The recursion is on [fuel], an upper
    bound on the number of turns; [None] means the bound was too small. *)
Fixpoint attempts (fuel : nat) (url : string) (options : RequestOptions)
    (attempt : Z) (w : World) : option (Completion Response * World) :=
  if attempt <=? retries options then
    match fuel with
    | O => None
    | S fuel' =>
        match iteration url options attempt w with
        | (Normal (Return res), w') => Some (Normal res, w')
        | (Normal NextAttempt, w') =>
            attempts fuel' url options (attempt + 1) w'
        | (Throw err, w') => Some (Throw err, w')
        end
    end
  else Some (Throw (NewError "Unreachable"), w).

(** The loop starts at [attempt = 1] and makes at most [retries] turns. *)
Definition fetchRetrier (url : string) (options : RequestOptions)
  : option (Completion Response * World) :=
  attempts (Z.to_nat (retries options)) url options 1 start.

End Executor.

(** The rest of a call that is about to test [attempt <= retries] in world
    [w]: the loop with the number of turns the test still allows. *)
Definition resume (env : Env) (url : string) (options : RequestOptions)
    (attempt : Z) (w : World) : option (Completion Response * World) :=
  attempts env (Z.to_nat (retries options + 1 - attempt)) url options attempt w.

(** The errors the [catch] clause retries on. *)
Definition transient (e : Exn) : bool :=
  isAbortError (Caught e) || isTypeError (Caught e).

(** [shouldRetry] was handed a response that the transport settled to and
    that is not ok, together with the text its body read yielded. *)
Definition wellFed (env : Env) (url : string) (options : RequestOptions)
    (ev : Event) : Prop :=
  match ev with
  | ShouldRetry res body =>
      (exists k, fetch env k url (headers options) = Fulfilled res)
      /\ ok res = false
      /\ text res = Fulfilled body
  | _ => True
  end.

(** The world after [evs] happened, [dc] of them transport invocations and
    [dr] of them draws of [Math.random]. *)
Definition after (w : World) (dc dr : nat) (evs : list Event) : World :=
  mkWorld (dc + calls w) (dr + draws w) (log w ++ evs).

(** The three events every attempt starts with when the transport settles. *)
Definition opening (url : string) (options : RequestOptions) : list Event :=
  [SetTimeout (timeoutMs options); Fetch url (headers options); ClearTimeout].

(** The turn goes on to the next attempt. *)
Definition isNext (c : Completion Flow) : bool :=
  match c with Normal NextAttempt => true | _ => false end.

(** The call is about to test [attempt <= retries] in world [w]: it has just
    started, or the turn before went on to the next attempt. *)
Inductive reaches (env : Env) (url : string) (options : RequestOptions)
  : Z -> World -> Prop :=
| reaches_start : reaches env url options 1 start
| reaches_next (attempt : Z) (w w' : World) :
    reaches env url options attempt w ->
    attempt <= retries options ->
    iteration env url options attempt w = (Normal NextAttempt, w') ->
    reaches env url options (attempt + 1) w'.

(** The [k]-th invocation of the transport settles to a response that is not
    ok, whose body can be read, and that the retry predicate accepts; [res]
    is that response and [body] its text. *)
Definition retriableAt (env : Env) (url : string) (options : RequestOptions)
    (k : nat) (res : Response) (body : string) : Prop :=
  fetch env k url (headers options) = Fulfilled res
  /\ ok res = false
  /\ text res = Fulfilled body
  /\ shouldRetryOf options res body = Fulfilled true.

(** After the transport settled to [res], the body read raises [e], or the
    body is read and the retry predicate raises [e]; the list holds the
    events that happen between line 39 and the [throw]. *)
Inductive raisesAfterFetch (options : RequestOptions) (res : Response)
    (e : Exn) : list Event -> Prop :=
| text_raises :
    text res = Rejected e ->
    raisesAfterFetch options res e [Text res]
| predicate_raises (body : string) :
    text res = Fulfilled body ->
    shouldRetryOf options res body = Rejected e ->
    raisesAfterFetch options res e [Text res; ShouldRetry res body].

(** ** Views of a history *)

Definition isSetTimeout (e : Event) : bool :=
  match e with SetTimeout _ => true | _ => false end.

(** The event neither arms a timer nor invokes the transport. *)
Definition quiet (e : Event) : bool :=
  negb (isSetTimeout e) && negb (isFetch e).

(** The delays of a history, oldest first. *)
Definition waits (l : list Event) : list Z :=
  flat_map (fun e => match e with Wait ms => [ms] | _ => [] end) l.

(** The responses whose body was read, oldest first. *)
Definition bodiesRead (l : list Event) : list Response :=
  flat_map (fun e => match e with Text res => [res] | _ => [] end) l.

(** [fullJitter(baseBackoffMs, attempt)] for the attempt numbered [k + 1],
    computed from the [k]-th value of [Math.random()]. *)
Definition backoff (env : Env) (options : RequestOptions) (k : nat) : Z :=
  jitter (random env k) (baseBackoffMs options) (Z.of_nat k + 1).

(** How a turn that does not go on to the next attempt completes the call:
    [return res] or [throw err]. *)
Definition settle (c : Completion Flow) : option (Completion Response) :=
  match c with
  | Normal (Return res) => Some (Normal res)
  | Normal NextAttempt => None
  | Throw err => Some (Throw err)
  end.

(** The history of one attempt: the timer is armed with [timeoutMs], the
    transport is invoked with the [url] and [headers] of the call, the timer
    is cleared, then come the events of [t]. *)
Definition attemptLog (url : string) (options : RequestOptions)
    (t : list Event) : list Event :=
  opening url options ++ t.

(** The [k]-th invocation of the transport raises [e], which the [catch]
    clause retries on. *)
Definition transientAt (env : Env) (url : string) (options : RequestOptions)
    (k : nat) (e : Exn) : Prop :=
  fetch env k url (headers options) = Rejected e /\ transient e = true.

(** ** Sample collaborators, from the test-suite *)

Definition baseOptions : RequestOptions := mkOptions None 3 5000 10 None.

Definition exampleUrl : string := "https://example.com".

Definition okRes : Response := mkResponse true 200 (Fulfilled "ok"%string).
Definition retryRes : Response :=
  mkResponse false 503 (Fulfilled "unavailable"%string).
Definition badRes : Response :=
  mkResponse false 400 (Fulfilled "bad request"%string).
Definition teapotRes : Response :=
  mkResponse false 418 (Fulfilled "teapot"%string).

Definition abortError : Exn :=
  mkExn PlainError "AbortError" "The operation was aborted".
Definition networkError : Exn :=
  mkExn TypeErrorClass "TypeError" "fetch failed".
Definition otherError : Exn := mkExn PlainError "Error" "Something else".

Definition half : nat -> Q := fun _ => 1 # 2.

(** [jest.fn().mockResolvedValue(res)] and [mockRejectedValue(e)] *)
Definition always (res : Response) : Env :=
  mkEnv (fun _ _ _ => Fulfilled res) half.
Definition failing (e : Exn) : Env :=
  mkEnv (fun _ _ _ => Rejected e) half.

(** [mockResolvedValueOnce] for each response of [l], then [last]. *)
Definition script (l : list Response) (last : Response) : Env :=
  mkEnv (fun k _ _ => Fulfilled (nth k l last)) half.

(** [{ ...baseOptions, retries: 2 }] *)
Definition twoAttempts : RequestOptions := mkOptions None 2 5000 10 None.

(** [{ ...baseOptions, shouldRetry: (res) => res.status === 418 }] *)
Definition teapotOptions : RequestOptions :=
  mkOptions None 3 5000 10
    (Some (fun res _ => Fulfilled (status res =? 418))).

(** A response whose body cannot be read: [res.text()] rejects with a
    [TypeError]. *)
Definition brokenBody : Response :=
  mkResponse false 503 (Rejected networkError).

(** [{ ...baseOptions, retries: 1 }] *)
Definition oneAttempt : RequestOptions := mkOptions None 1 5000 10 None.

(** A thrown value that is not an instance of [Error], although it is named
    like an abort. *)
Definition plainAbort : Exn := mkExn NotAnError "AbortError" "aborted".

(** A transport whose first invocation fails with a network error and whose
    later invocations raise [plainAbort]. *)
Definition flaky : Env :=
  mkEnv (fun k _ _ =>
           match k with
           | O => Rejected networkError
           | S _ => Rejected plainAbort
           end) half.

(** * Proofs *)

(** ** The test-suite, replayed on the model *)

Example replay_retry_then_success :
  fetchRetrier (script [retryRes] okRes) exampleUrl baseOptions
  = Some (Normal okRes,
          mkWorld 2 1
            [SetTimeout 5000; Fetch exampleUrl None; ClearTimeout;
             Text retryRes; ShouldRetry retryRes "unavailable"; Wait 10;
             SetTimeout 5000; Fetch exampleUrl None; ClearTimeout]).
Proof. reflexivity. Qed.

Example replay_custom_predicate :
  fetchRetrier (script [teapotRes] okRes) exampleUrl teapotOptions
  = Some (Normal okRes,
          mkWorld 2 1
            [SetTimeout 5000; Fetch exampleUrl None; ClearTimeout;
             Text teapotRes; ShouldRetry teapotRes "teapot"; Wait 10;
             SetTimeout 5000; Fetch exampleUrl None; ClearTimeout]).
Proof. reflexivity. Qed.

Example replay_network_error_exhausted :
  fetchRetrier (failing networkError) exampleUrl twoAttempts
  = Some (Throw (Caught networkError),
          mkWorld 2 1
            [SetTimeout 5000; Fetch exampleUrl None; ClearTimeout; Wait 10;
             SetTimeout 5000; Fetch exampleUrl None; ClearTimeout]).
Proof. reflexivity. Qed.

Example replay_zero_attempts :
  fetchRetrier (always okRes) exampleUrl (mkOptions None 0 5000 10 None)
  = Some (Throw (NewError "Unreachable"), start).
Proof. reflexivity. Qed.

(** ** Running one turn of the loop *)

Ltac unfold_monad :=
  unfold iteration, tryCatch, tryBlock, catchBlock, awaitFetch, awaitText,
    callShouldRetry, fullJitter, mathRandom, wait, setTimeout, clearTimeout,
    emit, await, bind, ret, throw, after, opening.

Ltac tidy_log := simpl; repeat (rewrite <- app_assoc; simpl).

Lemma NewError_not_abort (msg : string) : isAbortError (NewError msg) = false.
Proof. reflexivity. Qed.

Lemma NewError_not_TypeError (msg : string) : isTypeError (NewError msg) = false.
Proof. reflexivity. Qed.

Lemma transient_cases (e : Exn) :
  transient e = true ->
  isAbortError (Caught e) = true \/
  (isAbortError (Caught e) = false /\ isTypeError (Caught e) = true).
Proof.
  unfold transient. destruct (isAbortError (Caught e)); simpl; auto.
Qed.

Lemma fatal_cases (e : Exn) :
  transient e = false ->
  isAbortError (Caught e) = false /\ isTypeError (Caught e) = false.
Proof. unfold transient. apply orb_false_elim. Qed.

Section Turn.

Variables (env : Env) (url : string) (options : RequestOptions).
Variables (attempt : Z) (w : World).

Lemma turn_ok (res : Response) :
  fetch env (calls w) url (headers options) = Fulfilled res ->
  ok res = true ->
  iteration env url options attempt w
  = (Normal (Return res), after w 1 0 (opening url options)).
Proof.
  intros Hf Hok. unfold_monad. simpl. rewrite Hf. simpl.
  rewrite Hok. tidy_log. reflexivity.
Qed.

Lemma turn_retriable_more (res : Response) (body : string) :
  fetch env (calls w) url (headers options) = Fulfilled res ->
  ok res = false ->
  text res = Fulfilled body ->
  shouldRetryOf options res body = Fulfilled true ->
  attempt <> retries options ->
  iteration env url options attempt w
  = (Normal NextAttempt,
     after w 1 1
       (opening url options
        ++ [Text res; ShouldRetry res body;
            Wait (jitter (random env (draws w))
                    (baseBackoffMs options) attempt)])).
Proof.
  intros Hf Hok Ht Hp Hne. apply Z.eqb_neq in Hne.
  unfold_monad. simpl. rewrite Hf. simpl. rewrite Hok, Ht. simpl.
  rewrite Hp. simpl. rewrite Hne. tidy_log. reflexivity.
Qed.

Lemma turn_retriable_last (res : Response) (body : string) :
  fetch env (calls w) url (headers options) = Fulfilled res ->
  ok res = false ->
  text res = Fulfilled body ->
  shouldRetryOf options res body = Fulfilled true ->
  attempt = retries options ->
  iteration env url options attempt w
  = (Throw (NewError ("HTTP " ++ showZ (status res))),
     after w 1 0
       (opening url options
        ++ [Text res; ShouldRetry res body; ClearTimeout])).
Proof.
  intros Hf Hok Ht Hp He. apply Z.eqb_eq in He.
  unfold_monad. simpl. rewrite Hf. simpl. rewrite Hok, Ht. simpl.
  rewrite Hp. simpl. rewrite He. tidy_log. reflexivity.
Qed.

Lemma turn_not_retriable (res : Response) (body : string) :
  fetch env (calls w) url (headers options) = Fulfilled res ->
  ok res = false ->
  text res = Fulfilled body ->
  shouldRetryOf options res body = Fulfilled false ->
  iteration env url options attempt w
  = (Throw (NewError ("Non-retriable HTTP error: " ++ showZ (status res))),
     after w 1 0
       (opening url options
        ++ [Text res; ShouldRetry res body; ClearTimeout])).
Proof.
  intros Hf Hok Ht Hp.
  unfold_monad. simpl. rewrite Hf. simpl. rewrite Hok, Ht. simpl.
  rewrite Hp. tidy_log. reflexivity.
Qed.

(** What the [catch] clause does with a value a collaborator raised. *)
Lemma catch_transient_more (e : Exn) (w1 : World) :
  transient e = true ->
  attempt <> retries options ->
  catchBlock env options attempt (Caught e) w1
  = (Normal NextAttempt,
     after w1 0 1
       [ClearTimeout;
        Wait (jitter (random env (draws w1)) (baseBackoffMs options) attempt)]).
Proof.
  intros Htr Hne. apply Z.eqb_neq in Hne.
  unfold_monad. simpl.
  destruct (transient_cases e Htr) as [Ha | [Ha Ht]].
  - rewrite Ha, Hne. tidy_log. reflexivity.
  - rewrite Ha, Ht, Hne. tidy_log. reflexivity.
Qed.

Lemma catch_transient_last (e : Exn) (w1 : World) :
  transient e = true ->
  attempt = retries options ->
  catchBlock env options attempt (Caught e) w1
  = (Throw (Caught e), after w1 0 0 [ClearTimeout]).
Proof.
  intros Htr He. apply Z.eqb_eq in He.
  unfold_monad. simpl.
  destruct (transient_cases e Htr) as [Ha | [Ha Ht]].
  - rewrite Ha, He. reflexivity.
  - rewrite Ha, Ht, He. reflexivity.
Qed.

Lemma catch_fatal (e : Exn) (w1 : World) :
  transient e = false ->
  catchBlock env options attempt (Caught e) w1
  = (Throw (Caught e), after w1 0 0 [ClearTimeout]).
Proof.
  intros Hfa. destruct (fatal_cases e Hfa) as [Ha Ht].
  unfold_monad. simpl. rewrite Ha, Ht. reflexivity.
Qed.

(** The transport itself rejects: line 39 is skipped, the timer is cleared
    at line 57. *)
Lemma turn_rejected (e : Exn) :
  fetch env (calls w) url (headers options) = Rejected e ->
  iteration env url options attempt w
  = catchBlock env options attempt (Caught e)
      (after w 1 0
         [SetTimeout (timeoutMs options); Fetch url (headers options)]).
Proof.
  intros Hf. unfold iteration, tryCatch, tryBlock, awaitFetch, setTimeout,
    emit, bind, after. simpl. rewrite Hf. tidy_log. reflexivity.
Qed.

(** The body read, or the predicate, raises [e]: the timer was cleared at
    line 39 and is cleared again at line 57. *)
Lemma turn_text_rejected (res : Response) (e : Exn) :
  fetch env (calls w) url (headers options) = Fulfilled res ->
  ok res = false ->
  text res = Rejected e ->
  iteration env url options attempt w
  = catchBlock env options attempt (Caught e)
      (after w 1 0 (opening url options ++ [Text res])).
Proof.
  intros Hf Hok Ht. unfold iteration, tryCatch, tryBlock, awaitFetch,
    awaitText, setTimeout, clearTimeout, await, emit, bind, throw, after,
    opening.
  simpl. rewrite Hf. simpl. rewrite Hok, Ht. tidy_log.
  reflexivity.
Qed.

Lemma turn_predicate_raised (res : Response) (body : string) (e : Exn) :
  fetch env (calls w) url (headers options) = Fulfilled res ->
  ok res = false ->
  text res = Fulfilled body ->
  shouldRetryOf options res body = Rejected e ->
  iteration env url options attempt w
  = catchBlock env options attempt (Caught e)
      (after w 1 0 (opening url options ++ [Text res; ShouldRetry res body])).
Proof.
  intros Hf Hok Ht Hp. unfold iteration, tryCatch, tryBlock, awaitFetch,
    awaitText, callShouldRetry, setTimeout, clearTimeout, await, emit, bind,
    ret, throw, after, opening.
  simpl. rewrite Hf. simpl. rewrite Hok, Ht. simpl. rewrite Hp.
  tidy_log. reflexivity.
Qed.

End Turn.

(** ** The shape of every turn

    Whatever the collaborators do, a turn arms the timer, invokes the
    transport exactly once, calls [shouldRetry] only on a response that is not
    ok and with the text that was read from it, waits exactly when it goes on
    to the next attempt, goes on only when [attempt] is not [retries], and
    never throws the error of line 75. *)

Ltac close_turn :=
  do 3 eexists; (split; [reflexivity |]); tidy_log;
  repeat split; try reflexivity; auto; try discriminate;
  try (repeat constructor; eauto; fail);
  try (intros _; now apply Z.eqb_neq);
  try (intros ? [= <-]; discriminate).

Ltac catch_cases e attempt options :=
  destruct (isAbortError (Caught e)), (isTypeError (Caught e)),
    (attempt =? retries options) eqn:?; simpl; close_turn.

Lemma turn_shape (env : Env) (url : string) (options : RequestOptions)
    (attempt : Z) (w : World) :
  exists c w' tail,
    iteration env url options attempt w = (c, w')
    /\ log w' = log w ++ SetTimeout (timeoutMs options)
                         :: Fetch url (headers options) :: tail
    /\ calls w' = S (calls w)
    /\ invocations tail = 0%nat
    /\ delays tail = (if isNext c then 1 else 0)%nat
    /\ Forall (wellFed env url options) tail
    /\ (isNext c = true -> attempt <> retries options)
    /\ (forall err, c = Throw err -> err <> NewError "Unreachable").
Proof.
  unfold_monad. simpl.
  destruct (fetch env (calls w) url (headers options)) as [res | e] eqn:Hf;
    simpl.
  - destruct (ok res) eqn:Hok; simpl; [close_turn |].
    destruct (text res) as [body | e] eqn:Ht; simpl.
    + destruct (shouldRetryOf options res body) as [[|] | e]; simpl.
      * destruct (attempt =? retries options) eqn:Hq; simpl; close_turn.
      * close_turn.
      * catch_cases e attempt options.
    + catch_cases e attempt options.
  - catch_cases e attempt options.
Qed.

(** ** The loop *)

Lemma invocations_app (l1 l2 : list Event) :
  invocations (l1 ++ l2) = (invocations l1 + invocations l2)%nat.
Proof. unfold invocations. now rewrite filter_app, length_app. Qed.

Lemma delays_app (l1 l2 : list Event) :
  delays (l1 ++ l2) = (delays l1 + delays l2)%nat.
Proof. unfold delays. now rewrite filter_app, length_app. Qed.

Section Loop.

Variables (env : Env) (url : string) (options : RequestOptions).

Lemma fetchRetrier_resume :
  fetchRetrier env url options = resume env url options 1 start.
Proof.
  unfold fetchRetrier, resume.
  now replace (retries options + 1 - 1) with (retries options) by lia.
Qed.

(** The loop test fails: line 75. *)
Lemma resume_exit (attempt : Z) (w : World) :
  retries options < attempt ->
  resume env url options attempt w = Some (Throw (NewError "Unreachable"), w).
Proof.
  intros Hlt. unfold resume.
  assert (Hq : (attempt <=? retries options) = false) by now apply Z.leb_gt.
  destruct (Z.to_nat _); simpl; now rewrite Hq.
Qed.

(** The loop test succeeds: one turn, then what the turn decides. *)
Lemma resume_step (attempt : Z) (w : World) :
  attempt <= retries options ->
  resume env url options attempt w
  = match iteration env url options attempt w with
    | (Normal (Return res), w') => Some (Normal res, w')
    | (Normal NextAttempt, w') => resume env url options (attempt + 1) w'
    | (Throw err, w') => Some (Throw err, w')
    end.
Proof.
  intros Hle. unfold resume.
  replace (Z.to_nat (retries options + 1 - attempt))
    with (S (Z.to_nat (retries options + 1 - (attempt + 1)))) by lia.
  simpl. apply Z.leb_le in Hle. now rewrite Hle.
Qed.

Lemma resume_return (attempt : Z) (w w' : World) (res : Response) :
  attempt <= retries options ->
  iteration env url options attempt w = (Normal (Return res), w') ->
  resume env url options attempt w = Some (Normal res, w').
Proof. intros Hle Hi. now rewrite resume_step, Hi. Qed.

Lemma resume_next (attempt : Z) (w w' : World) :
  attempt <= retries options ->
  iteration env url options attempt w = (Normal NextAttempt, w') ->
  resume env url options attempt w = resume env url options (attempt + 1) w'.
Proof. intros Hle Hi. now rewrite resume_step, Hi. Qed.

Lemma resume_throw (attempt : Z) (w w' : World) (err : Thrown) :
  attempt <= retries options ->
  iteration env url options attempt w = (Throw err, w') ->
  resume env url options attempt w = Some (Throw err, w').
Proof. intros Hle Hi. now rewrite resume_step, Hi. Qed.

(** The loop always comes to an end; its history extends the one it started
    from, [shouldRetry] is well fed throughout, and once the loop test has
    succeeded the error of line 75 is out of reach. *)
Lemma resume_total (n : nat) :
  forall attempt w,
    n = Z.to_nat (retries options + 1 - attempt) ->
    exists c wf rest,
      resume env url options attempt w = Some (c, wf)
      /\ log wf = log w ++ rest
      /\ Forall (wellFed env url options) rest
      /\ (attempt <= retries options -> c <> Throw (NewError "Unreachable")).
Proof.
  induction n as [| n IH]; intros attempt w Hn.
  - exists (Throw (NewError "Unreachable")), w, [].
    repeat split; [apply resume_exit; lia | now rewrite app_nil_r
                  | constructor | lia].
  - assert (Hle : attempt <= retries options) by lia.
    destruct (turn_shape env url options attempt w)
      as (c & w' & tail & Hi & Hlog & _ & _ & _ & Hfed & Hnext & Hthrow).
    assert (Hfed' : Forall (wellFed env url options)
                      (SetTimeout (timeoutMs options)
                         :: Fetch url (headers options) :: tail))
      by (repeat (constructor; [exact I |]); exact Hfed).
    rewrite (resume_step _ _ Hle), Hi.
    destruct c as [[res |] | err].
    + eexists _, _, _. repeat split; [exact Hlog | exact Hfed' | discriminate].
    + destruct (IH (attempt + 1) w') as (c & wf & rest & Hr & Hl & Hf & Hu);
        [lia |].
      exists c, wf. eexists. repeat split; [exact Hr | | | ].
      * rewrite Hl, Hlog, <- app_assoc. reflexivity.
      * apply Forall_app. split; [exact Hfed' | exact Hf].
      * intros _. apply Hu. specialize (Hnext eq_refl). lia.
    + eexists _, _, _. repeat split; [exact Hlog | exact Hfed' |].
      intros _ [= ->]. now apply (Hthrow _ eq_refl).
Qed.

(** A turn whose loop test succeeds starts by invoking the transport. *)
Lemma resume_invokes (attempt : Z) (w : World) :
  attempt <= retries options ->
  exists c wf rest,
    resume env url options attempt w = Some (c, wf)
    /\ log wf = log w ++ SetTimeout (timeoutMs options)
                         :: Fetch url (headers options) :: rest.
Proof.
  intros Hle.
  destruct (turn_shape env url options attempt w)
    as (c & w' & tail & Hi & Hlog & _).
  rewrite (resume_step _ _ Hle), Hi.
  destruct c as [[res |] | err].
  - eexists _, _, _. split; [reflexivity | exact Hlog].
  - destruct (resume_total _ (attempt + 1) w' eq_refl)
      as (c & wf & rest & Hr & Hl & _).
    exists c, wf. eexists. split; [exact Hr |].
    rewrite Hl, Hlog, <- app_assoc. reflexivity.
  - eexists _, _, _. split; [reflexivity | exact Hlog].
Qed.

Lemma reaches_result (attempt : Z) (w : World) :
  reaches env url options attempt w ->
  fetchRetrier env url options = resume env url options attempt w.
Proof.
  induction 1 as [| attempt w w' _ IH Hle Hi].
  - apply fetchRetrier_resume.
  - rewrite IH. now apply resume_next.
Qed.

(** At the loop test of turn [attempt] the transport has been invoked
    [attempt - 1] times, each invocation but the last one of the call is
    followed by one delay, and [shouldRetry] was well fed so far. *)
Lemma reaches_inv (attempt : Z) (w : World) :
  reaches env url options attempt w ->
  1 <= attempt
  /\ calls w = Z.to_nat (attempt - 1)
  /\ invocations (log w) = calls w
  /\ delays (log w) = calls w
  /\ Forall (wellFed env url options) (log w).
Proof.
  induction 1 as [| attempt w w' _ IH Hle Hi].
  - repeat split; try reflexivity; try lia. constructor.
  - destruct IH as (H1 & Hc & Hn & Hd & Hw).
    destruct (turn_shape env url options attempt w)
      as (c & w1 & tail & Hi' & Hlog & Hcalls & Hinv & Hdel & Hfed & _).
    rewrite Hi in Hi'. injection Hi' as <- <-. simpl in Hdel.
    rewrite Hlog, Hcalls.
    change (SetTimeout (timeoutMs options)
              :: Fetch url (headers options) :: tail)
      with ([SetTimeout (timeoutMs options); Fetch url (headers options)]
              ++ tail).
    rewrite !invocations_app, !delays_app, Hinv, Hdel, Hn, Hd.
    repeat split; try lia; simpl; try lia.
    apply Forall_app. split; [exact Hw |].
    repeat (constructor; [exact I |]). exact Hfed.
Qed.

End Loop.

(** ** Claims about the first attempts *)

(** C5.  Whenever [retries >= 1] and the first invocation of the transport
    settles to a response whose [ok] flag is set, [fetchRetrier] returns that
    very response after one transport invocation and no backoff delay: the
    whole history is "arm the timer, fetch, clear the timer". *)
Theorem ok_first_attempt_passthrough (env : Env) (url : string)
    (options : RequestOptions) (res : Response) :
  1 <= retries options ->
  fetch env 0 url (headers options) = Fulfilled res ->
  ok res = true ->
  let wf := mkWorld 1 0 [SetTimeout (timeoutMs options);
                         Fetch url (headers options); ClearTimeout] in
  fetchRetrier env url options = Some (Normal res, wf)
  /\ invocations (log wf) = 1%nat
  /\ delays (log wf) = 0%nat.
Proof.
  intros Hn Hf Hok wf. split; [| split; reflexivity].
  rewrite fetchRetrier_resume.
  rewrite (resume_return env url options 1 start wf res); [reflexivity | lia |].
  now rewrite (turn_ok env url options 1 start res).
Qed.

Lemma ok_first_attempt_passthrough_witness :
  fetchRetrier (always okRes) exampleUrl baseOptions
  = Some (Normal okRes,
          mkWorld 1 0 [SetTimeout 5000; Fetch exampleUrl None; ClearTimeout]).
Proof.
  refine (proj1 (ok_first_attempt_passthrough (always okRes) exampleUrl baseOptions
           okRes _ _ _)); [simpl; lia | reflexivity | reflexivity].
Defined.

(** C3.  Whenever [retries >= 1] and the first invocation of the transport
    raises a value that is neither an [Error] named [AbortError] nor a
    [TypeError], [fetchRetrier] throws that very value after one transport
    invocation, without any backoff delay. *)
Theorem fatal_first_attempt_rethrown (env : Env) (url : string)
    (options : RequestOptions) (e : Exn) :
  1 <= retries options ->
  fetch env 0 url (headers options) = Rejected e ->
  isAbortError (Caught e) = false ->
  isTypeError (Caught e) = false ->
  let wf := mkWorld 1 0 [SetTimeout (timeoutMs options);
                         Fetch url (headers options); ClearTimeout] in
  fetchRetrier env url options = Some (Throw (Caught e), wf)
  /\ invocations (log wf) = 1%nat
  /\ delays (log wf) = 0%nat.
Proof.
  intros Hn Hf Ha Ht wf. split; [| split; reflexivity].
  assert (Hfatal : transient e = false) by (unfold transient; now rewrite Ha, Ht).
  rewrite fetchRetrier_resume.
  rewrite (resume_throw env url options 1 start wf (Caught e));
    [reflexivity | lia |].
  rewrite (turn_rejected env url options 1 start e Hf).
  now rewrite (catch_fatal env options 1 e _ Hfatal).
Qed.

Lemma fatal_first_attempt_rethrown_witness :
  fetchRetrier (failing otherError) exampleUrl baseOptions
  = Some (Throw (Caught otherError),
          mkWorld 1 0 [SetTimeout 5000; Fetch exampleUrl None; ClearTimeout]).
Proof.
  refine (proj1 (fatal_first_attempt_rethrown (failing otherError) exampleUrl
                   baseOptions otherError _ _ _ _));
    [simpl; lia | reflexivity | reflexivity | reflexivity].
Defined.

(** C6.  With [retries >= 3], when the first two invocations of the transport
    settle to retriable responses and the third to an ok response,
    [fetchRetrier] returns the third response; the history holds exactly
    three transport invocations and the two delays between them. *)
Theorem succeeds_on_third_attempt (env : Env) (url : string)
    (options : RequestOptions) (r1 r2 r3 : Response) (b1 b2 : string) :
  3 <= retries options ->
  retriableAt env url options 0 r1 b1 ->
  retriableAt env url options 1 r2 b2 ->
  fetch env 2 url (headers options) = Fulfilled r3 ->
  ok r3 = true ->
  let base := baseBackoffMs options in
  let wf :=
    mkWorld 3 2
      (opening url options
       ++ [Text r1; ShouldRetry r1 b1; Wait (jitter (random env 0) base 1)]
       ++ opening url options
       ++ [Text r2; ShouldRetry r2 b2; Wait (jitter (random env 1) base 2)]
       ++ opening url options) in
  fetchRetrier env url options = Some (Normal r3, wf)
  /\ invocations (log wf) = 3%nat
  /\ delays (log wf) = 2%nat.
Proof.
  intros Hn (Hf1 & Hok1 & Ht1 & Hp1) (Hf2 & Hok2 & Ht2 & Hp2) Hf3 Hok3 base wf.
  split; [| split; reflexivity].
  rewrite fetchRetrier_resume.
  set (w1 := after start 1 1
               (opening url options
                ++ [Text r1; ShouldRetry r1 b1;
                    Wait (jitter (random env 0) base 1)])).
  set (w2 := after w1 1 1
               (opening url options
                ++ [Text r2; ShouldRetry r2 b2;
                    Wait (jitter (random env 1) base 2)])).
  rewrite (resume_next env url options 1 start w1);
    [| lia | now apply turn_retriable_more; try lia].
  rewrite (resume_next env url options (1 + 1) w1 w2);
    [| lia | now apply turn_retriable_more; try lia].
  rewrite (resume_return env url options (1 + 1 + 1) w2
             (after w2 1 0 (opening url options)) r3);
    [| lia | now apply turn_ok].
  reflexivity.
Qed.

Lemma succeeds_on_third_attempt_witness :
  fetchRetrier (script [retryRes; retryRes] okRes) exampleUrl baseOptions
  = Some (Normal okRes,
          mkWorld 3 2
            [SetTimeout 5000; Fetch exampleUrl None; ClearTimeout;
             Text retryRes; ShouldRetry retryRes "unavailable"; Wait 10;
             SetTimeout 5000; Fetch exampleUrl None; ClearTimeout;
             Text retryRes; ShouldRetry retryRes "unavailable"; Wait 20;
             SetTimeout 5000; Fetch exampleUrl None; ClearTimeout]).
Proof.
  refine (proj1 (succeeds_on_third_attempt
                   (script [retryRes; retryRes] okRes) exampleUrl baseOptions
                   retryRes retryRes okRes "unavailable" "unavailable"
                   _ _ _ _ _));
    [simpl; lia
    | repeat split; reflexivity
    | repeat split; reflexivity
    | reflexivity
    | reflexivity].
Defined.

(** ** Claims about any attempt of a call *)

Section AnyAttempt.

Variables (env : Env) (url : string) (options : RequestOptions).

(** C4.  At any attempt the call reaches, a response that is not ok and that
    the retry predicate rejects ends the call at once: [fetchRetrier] throws
    [Error("Non-retriable HTTP error: <status>")] after the one transport
    invocation that produced the response, without any delay, however many
    attempts remain. *)
Theorem not_retriable_fails_at_once (attempt : Z) (w : World)
    (res : Response) (body : string) :
  reaches env url options attempt w ->
  attempt <= retries options ->
  fetch env (calls w) url (headers options) = Fulfilled res ->
  ok res = false ->
  text res = Fulfilled body ->
  shouldRetryOf options res body = Fulfilled false ->
  let wf := after w 1 0 (opening url options
                         ++ [Text res; ShouldRetry res body; ClearTimeout]) in
  fetchRetrier env url options
  = Some (Throw (NewError ("Non-retriable HTTP error: "
                           ++ showZ (status res))), wf)
  /\ invocations (log wf) = S (invocations (log w))
  /\ delays (log wf) = delays (log w).
Proof.
  intros Hr Hle Hf Hok Ht Hp wf. split.
  - rewrite (reaches_result _ _ _ _ _ Hr).
    apply resume_throw; [exact Hle |].
    now apply turn_not_retriable.
  - unfold wf, after, opening. simpl log.
    rewrite invocations_app, delays_app.
    unfold invocations, delays. simpl. lia.
Qed.

(** C2.  At any attempt the call reaches, when the transport raises an
    [Error] named [AbortError] or a [TypeError]: if attempts remain, the
    timer is cleared, one full-jitter delay is waited for and the call goes
    on to the next attempt, which invokes the transport again; at the last
    attempt the call throws the very value the transport raised. *)
Theorem transient_failure_retried_or_rethrown (attempt : Z) (w : World)
    (e : Exn) :
  reaches env url options attempt w ->
  attempt <= retries options ->
  fetch env (calls w) url (headers options) = Rejected e ->
  isAbortError (Caught e) = true \/ isTypeError (Caught e) = true ->
  let w1 := after w 1 0 (opening url options) in
  let ms := jitter (random env (draws w)) (baseBackoffMs options) attempt in
  let w2 := after w1 0 1 [Wait ms] in
  (attempt < retries options ->
   reaches env url options (attempt + 1) w2
   /\ exists c wf rest,
       fetchRetrier env url options = Some (c, wf)
       /\ log wf = log w2 ++ SetTimeout (timeoutMs options)
                             :: Fetch url (headers options) :: rest)
  /\ (attempt = retries options ->
      fetchRetrier env url options = Some (Throw (Caught e), w1)).
Proof.
  intros Hr Hle Hf Hcls w1 ms w2.
  assert (Htr : transient e = true).
  { unfold transient. destruct Hcls as [-> | ->]; [reflexivity |].
    apply orb_true_r. }
  split.
  - intros Hlt.
    assert (Hi : iteration env url options attempt w = (Normal NextAttempt, w2)).
    { rewrite (turn_rejected _ _ _ _ _ e Hf).
      rewrite (catch_transient_more env options attempt e _ Htr); [| lia].
      unfold w2, w1, ms, after, opening. tidy_log. reflexivity. }
    assert (Hr2 : reaches env url options (attempt + 1) w2)
      by (eapply reaches_next; eauto).
    split; [exact Hr2 |].
    rewrite (reaches_result _ _ _ _ _ Hr2).
    apply resume_invokes. lia.
  - intros Heq.
    rewrite (reaches_result _ _ _ _ _ Hr).
    apply resume_throw; [exact Hle |].
    rewrite (turn_rejected _ _ _ _ _ e Hf).
    rewrite (catch_transient_last env options attempt e _ Htr Heq).
    unfold w1, after, opening. tidy_log. reflexivity.
Qed.

(** C10.  At any attempt the call reaches, when the response is not ok and
    reading its body, or the retry predicate, raises [e], the [catch] clause
    treats [e] like a transport failure: an [AbortError]-named [Error] or a
    [TypeError] with attempts remaining is followed by a full-jitter delay
    and the next attempt, which invokes the transport again, and [e] is not
    propagated then; any other value is thrown at once. *)
Theorem body_or_predicate_failure_classified (attempt : Z) (w : World)
    (res : Response) (e : Exn) (evs : list Event) :
  reaches env url options attempt w ->
  attempt <= retries options ->
  fetch env (calls w) url (headers options) = Fulfilled res ->
  ok res = false ->
  raisesAfterFetch options res e evs ->
  let w1 := after w 1 0 (opening url options ++ evs ++ [ClearTimeout]) in
  let ms := jitter (random env (draws w)) (baseBackoffMs options) attempt in
  let w2 := after w1 0 1 [Wait ms] in
  (isAbortError (Caught e) = true \/ isTypeError (Caught e) = true ->
   attempt < retries options ->
   reaches env url options (attempt + 1) w2
   /\ exists c wf rest,
       fetchRetrier env url options = Some (c, wf)
       /\ log wf = log w2 ++ SetTimeout (timeoutMs options)
                             :: Fetch url (headers options) :: rest)
  /\ (isAbortError (Caught e) = false -> isTypeError (Caught e) = false ->
      fetchRetrier env url options = Some (Throw (Caught e), w1)).
Proof.
  intros Hr Hle Hf Hok Hraise w1 ms w2.
  assert (Hturn : iteration env url options attempt w
                  = catchBlock env options attempt (Caught e)
                      (after w 1 0 (opening url options ++ evs))).
  { destruct Hraise as [Ht | body Ht Hp].
    - now apply turn_text_rejected.
    - now apply turn_predicate_raised. }
  split.
  - intros Hcls Hlt.
    assert (Htr : transient e = true).
    { unfold transient. destruct Hcls as [-> | ->]; [reflexivity |].
      apply orb_true_r. }
    assert (Hi : iteration env url options attempt w = (Normal NextAttempt, w2)).
    { rewrite Hturn.
      rewrite (catch_transient_more env options attempt e _ Htr); [| lia].
      unfold w2, w1, ms, after, opening. tidy_log. reflexivity. }
    assert (Hr2 : reaches env url options (attempt + 1) w2)
      by (eapply reaches_next; eauto).
    split; [exact Hr2 |].
    rewrite (reaches_result _ _ _ _ _ Hr2).
    apply resume_invokes. lia.
  - intros Ha Ht.
    assert (Hfatal : transient e = false)
      by (unfold transient; now rewrite Ha, Ht).
    rewrite (reaches_result _ _ _ _ _ Hr).
    apply resume_throw; [exact Hle |].
    rewrite Hturn, (catch_fatal env options attempt e _ Hfatal).
    unfold w1, after, opening. tidy_log. reflexivity.
Qed.

End AnyAttempt.

Lemma not_retriable_fails_at_once_witness :
  fetchRetrier (always badRes) exampleUrl baseOptions
  = Some (Throw (NewError "Non-retriable HTTP error: 400"),
          mkWorld 1 0
            [SetTimeout 5000; Fetch exampleUrl None; ClearTimeout;
             Text badRes; ShouldRetry badRes "bad request"; ClearTimeout]).
Proof.
  refine (proj1 (not_retriable_fails_at_once (always badRes) exampleUrl
                   baseOptions 1 start badRes "bad request" _ _ _ _ _ _));
    [apply reaches_start | simpl; lia | reflexivity | reflexivity
    | reflexivity | reflexivity].
Defined.

(** The test "should retry on timeout (AbortError) and throw after last
    attempt": the first attempt is retried after a delay, the second one
    rethrows. *)
Lemma transient_failure_retried_or_rethrown_witness :
  fetchRetrier (failing abortError) exampleUrl twoAttempts
  = Some (Throw (Caught abortError),
          mkWorld 2 1
            [SetTimeout 5000; Fetch exampleUrl None; ClearTimeout; Wait 10;
             SetTimeout 5000; Fetch exampleUrl None; ClearTimeout]).
Proof.
  destruct (transient_failure_retried_or_rethrown (failing abortError)
              exampleUrl twoAttempts 1 start abortError)
    as [Hmore _];
    [apply reaches_start | simpl; lia | reflexivity | left; reflexivity |].
  destruct Hmore as [Hr2 _]; [simpl; lia |].
  refine (proj2 (transient_failure_retried_or_rethrown (failing abortError)
                   exampleUrl twoAttempts (1 + 1) _ abortError Hr2 _ _ _) _);
    [simpl; lia | reflexivity | left; reflexivity | reflexivity].
Defined.

Lemma body_or_predicate_failure_classified_witness :
  reaches (always brokenBody) exampleUrl baseOptions (1 + 1)
    (mkWorld 1 1
       [SetTimeout 5000; Fetch exampleUrl None; ClearTimeout;
        Text brokenBody; ClearTimeout; Wait 10]).
Proof.
  refine (proj1 (proj1 (body_or_predicate_failure_classified
                          (always brokenBody) exampleUrl baseOptions 1 start
                          brokenBody networkError [Text brokenBody]
                          _ _ _ _ _) _ _));
    [apply reaches_start | simpl; lia | reflexivity | reflexivity
    | apply text_raises; reflexivity | right; reflexivity | simpl; lia].
Defined.

(** ** Claims about the whole call *)

Section WholeCall.

Variables (env : Env) (url : string) (options : RequestOptions).

Lemma exhaust_from (last : Response) (n : nat) :
  (forall k, (k < Z.to_nat (retries options))%nat ->
             exists res body, retriableAt env url options k res body) ->
  fetch env (Z.to_nat (retries options) - 1) url (headers options)
  = Fulfilled last ->
  forall attempt w,
    n = Z.to_nat (retries options - attempt) ->
    reaches env url options attempt w ->
    attempt <= retries options ->
    exists wf,
      fetchRetrier env url options
      = Some (Throw (NewError ("HTTP " ++ showZ (status last))), wf)
      /\ calls wf = Z.to_nat (retries options)
      /\ invocations (log wf) = Z.to_nat (retries options)
      /\ delays (log wf) = (Z.to_nat (retries options) - 1)%nat.
Proof.
  intros Hall Hlast. induction n as [| n IH]; intros attempt w Hn Hr Hle.
  - assert (Heq : attempt = retries options) by lia.
    destruct (reaches_inv _ _ _ _ _ Hr) as (H1 & Hc & Hi & Hd & _).
    assert (Hk : calls w = (Z.to_nat (retries options) - 1)%nat) by lia.
    destruct (Hall (calls w)) as (res & body & Hf & Hok & Ht & Hp); [lia |].
    assert (res = last) as -> by (rewrite Hk in Hf; congruence).
    eexists. split.
    + rewrite (reaches_result _ _ _ _ _ Hr).
      apply resume_throw; [exact Hle |].
      now apply turn_retriable_last with (body := body).
    + unfold after, opening. simpl calls. simpl log.
      rewrite invocations_app, delays_app.
      unfold invocations, delays in *. simpl. lia.
  - destruct (reaches_inv _ _ _ _ _ Hr) as (H1 & Hc & _).
    destruct (Hall (calls w)) as (res & body & Hf & Hok & Ht & Hp); [lia |].
    apply (IH (attempt + 1)
             (after w 1 1
                (opening url options
                 ++ [Text res; ShouldRetry res body;
                     Wait (jitter (random env (draws w))
                             (baseBackoffMs options) attempt)])));
      [lia | | lia].
    eapply reaches_next; [exact Hr | exact Hle |].
    apply turn_retriable_more; auto. lia.
Qed.

(** C1.  With [retries = N >= 1], when each of the first [N] invocations of
    the transport settles to a response that is not ok and that the retry
    predicate accepts, [fetchRetrier] invokes the transport exactly [N]
    times (with [N - 1] delays in between) and then throws
    [Error("HTTP <status>")] for the status of the last response. *)
Theorem retriable_until_exhausted (last : Response) :
  1 <= retries options ->
  (forall k, (k < Z.to_nat (retries options))%nat ->
             exists res body, retriableAt env url options k res body) ->
  fetch env (Z.to_nat (retries options) - 1) url (headers options)
  = Fulfilled last ->
  exists wf,
    fetchRetrier env url options
    = Some (Throw (NewError ("HTTP " ++ showZ (status last))), wf)
    /\ calls wf = Z.to_nat (retries options)
    /\ invocations (log wf) = Z.to_nat (retries options)
    /\ delays (log wf) = (Z.to_nat (retries options) - 1)%nat.
Proof.
  intros Hn Hall Hlast.
  apply (exhaust_from last _ Hall Hlast 1 start eq_refl);
    [apply reaches_start | lia].
Qed.

(** C8.  In every call, the retry predicate is only ever invoked on a
    response whose [ok] flag is false, and with the text that reading the
    body of that response yielded: every [ShouldRetry] event of the final
    history is well fed.  The call always terminates. *)
Theorem predicate_only_fed_failed_responses :
  exists c wf,
    fetchRetrier env url options = Some (c, wf)
    /\ Forall (wellFed env url options) (log wf).
Proof.
  destruct (resume_total env url options _ 1 start eq_refl)
    as (c & wf & rest & Hr & Hl & Hf & _).
  exists c, wf. split; [now rewrite fetchRetrier_resume |].
  rewrite Hl. simpl. exact Hf.
Qed.

(** C9.  Every call terminates.  With [retries >= 1] it never ends in the
    [Error("Unreachable")] that line 75 builds: it returns a response or
    throws from inside the loop.  With [retries < 1] it ends in exactly that
    error, and the transport was never invoked. *)
Theorem unreachable_only_without_attempts :
  exists c wf,
    fetchRetrier env url options = Some (c, wf)
    /\ (1 <= retries options -> c <> Throw (NewError "Unreachable"))
    /\ (retries options < 1 ->
        c = Throw (NewError "Unreachable")
        /\ wf = start /\ invocations (log wf) = 0%nat).
Proof.
  destruct (Z_lt_le_dec (retries options) 1) as [Hlt | Hle].
  - exists (Throw (NewError "Unreachable")), start.
    split; [| split; [lia | intros _; repeat split]].
    rewrite fetchRetrier_resume. apply resume_exit. lia.
  - destruct (resume_total env url options _ 1 start eq_refl)
      as (c & wf & rest & Hr & _ & _ & Hu).
    exists c, wf. split; [now rewrite fetchRetrier_resume |].
    split; [exact Hu | lia].
Qed.

End WholeCall.

Lemma retriable_until_exhausted_witness :
  exists wf,
    fetchRetrier (always retryRes) exampleUrl twoAttempts
    = Some (Throw (NewError "HTTP 503"), wf)
    /\ calls wf = 2%nat
    /\ invocations (log wf) = 2%nat
    /\ delays (log wf) = 1%nat.
Proof.
  refine (retriable_until_exhausted (always retryRes) exampleUrl twoAttempts
            retryRes _ _ _);
    [simpl; lia
    | intros k _; exists retryRes, "unavailable"%string; repeat split
    | reflexivity].
Defined.

(** ** The jitter delay calculator *)









(** * Further properties of the executor *)

(** ** What one turn does, in detail *)

Ltac close_throw :=
  let err := fresh "err" in
  let Herr := fresh "Herr" in
  let Hne := fresh "Hne" in
  intros err Herr Hne;
  first
    [ discriminate Herr
    | match goal with
      | Hq : (_ =? _) = true |- _ => apply Z.eqb_eq in Hq; contradiction
      end
    | injection Herr as <-;
      first
        [ right; eexists; split; reflexivity
        | left; eexists; split; [reflexivity |];
          match goal with
          | Ha : isAbortError _ = false, Hb : isTypeError _ = false |- _ =>
              rewrite Ha, Hb; reflexivity
          end ] ].

Ltac close_detail :=
  do 3 eexists; (split; [reflexivity |]); tidy_log;
  split; [reflexivity |];
  split; [reflexivity |];
  split; [reflexivity |];
  split; [reflexivity |];
  split; [simpl; repeat constructor; assumption |];
  split;
    [ let Hc := fresh "Hc" in
      intros ? Hc;
      first [ discriminate Hc
            | injection Hc as <-; split; [assumption | reflexivity] ]
    | close_throw ].

Ltac catch_detail e attempt options :=
  destruct (isAbortError (Caught e)) eqn:?,
    (isTypeError (Caught e)) eqn:?,
    (attempt =? retries options) eqn:?; simpl; close_detail.

Lemma turn_detail (env : Env) (url : string) (options : RequestOptions)
    (attempt : Z) (w : World) :
  exists c w' tail,
    iteration env url options attempt w = (c, w')
    /\ log w' = log w ++ attemptLog url options tail
    /\ draws w' = ((if isNext c then 1 else 0) + draws w)%nat
    /\ forallb quiet tail = true
    /\ waits tail
       = (if isNext c
          then [jitter (random env (draws w)) (baseBackoffMs options) attempt]
          else [])
    /\ Forall (fun res => ok res = false) (bodiesRead tail)
    /\ (forall res, c = Normal (Return res) ->
          ok res = true
          /\ fetch env (calls w) url (headers options) = Fulfilled res)
    /\ (forall err, c = Throw err -> attempt <> retries options ->
          (exists e, err = Caught e /\ transient e = false)
          \/ (exists res,
                fetch env (calls w) url (headers options) = Fulfilled res
                /\ err = NewError ("Non-retriable HTTP error: "
                                   ++ showZ (status res)))).
Proof.
  unfold_monad. unfold attemptLog, opening, transient. simpl.
  destruct (fetch env (calls w) url (headers options)) as [res | e] eqn:Hf;
    simpl.
  - destruct (ok res) eqn:Hok; simpl; [close_detail |].
    destruct (text res) as [body | e] eqn:Ht; simpl.
    + destruct (shouldRetryOf options res body) as [[|] | e]; simpl.
      * destruct (attempt =? retries options) eqn:Hq; simpl; close_detail.
      * close_detail.
      * catch_detail e attempt options.
    + catch_detail e attempt options.
  - catch_detail e attempt options.
Qed.

(** ** Every call is a run of turns *)

Lemma waits_app (l1 l2 : list Event) : waits (l1 ++ l2) = waits l1 ++ waits l2.
Proof. apply flat_map_app. Qed.

Lemma bodiesRead_app (l1 l2 : list Event) :
  bodiesRead (l1 ++ l2) = bodiesRead l1 ++ bodiesRead l2.
Proof. apply flat_map_app. Qed.

Section Runs.

Variables (env : Env) (url : string) (options : RequestOptions).

(** Without attempts the call is over before it starts. *)
Lemma no_attempt :
  retries options < 1 ->
  fetchRetrier env url options = Some (Throw (NewError "Unreachable"), start).
Proof.
  intros Hlt. rewrite fetchRetrier_resume. apply resume_exit. lia.
Qed.

Lemma ends_in_a_turn_from (n : nat) :
  forall attempt w,
    n = Z.to_nat (retries options - attempt) ->
    reaches env url options attempt w ->
    attempt <= retries options ->
    exists attempt' w0 c wf r,
      reaches env url options attempt' w0
      /\ attempt' <= retries options
      /\ iteration env url options attempt' w0 = (c, wf)
      /\ settle c = Some r
      /\ fetchRetrier env url options = Some (r, wf).
Proof.
  induction n as [| n IH]; intros attempt w Hn Hr Hle;
    destruct (turn_shape env url options attempt w)
      as (c & w' & tail & Hi & _ & _ & _ & _ & _ & Hnext & _);
    destruct c as [[res |] | err].
  1, 4: exists attempt, w, (Normal (Return res)), w', (Normal res);
    repeat split; auto; rewrite (reaches_result _ _ _ _ _ Hr);
    now apply resume_return.
  2, 4: exists attempt, w, (Throw err), w', (Throw err);
    repeat split; auto; rewrite (reaches_result _ _ _ _ _ Hr);
    now apply resume_throw.
  - specialize (Hnext eq_refl). lia.
  - apply (IH (attempt + 1) w'); [lia | | specialize (Hnext eq_refl); lia].
    eapply reaches_next; eauto.
Qed.

(** With [retries >= 1], the call is completed by a turn that returns or
    throws, entered at a loop test the call reaches. *)
Lemma ends_in_a_turn :
  1 <= retries options ->
  exists attempt w c wf r,
    reaches env url options attempt w
    /\ attempt <= retries options
    /\ iteration env url options attempt w = (c, wf)
    /\ settle c = Some r
    /\ fetchRetrier env url options = Some (r, wf).
Proof.
  intros Hn.
  apply (ends_in_a_turn_from _ 1 start eq_refl); [apply reaches_start | lia].
Qed.

(** At a loop test: one random value was drawn per transport invocation so
    far, the delays waited are those of the backoff schedule, only bodies of
    responses that are not ok were read, and the history is made of whole
    attempts. *)
Lemma reaches_detail (attempt : Z) (w : World) :
  reaches env url options attempt w ->
  draws w = calls w
  /\ waits (log w) = map (backoff env options) (seq 0 (calls w))
  /\ Forall (fun res => ok res = false) (bodiesRead (log w))
  /\ exists tails,
       log w = concat (map (attemptLog url options) tails)
       /\ length tails = calls w
       /\ Forall (fun t => forallb quiet t = true) tails.
Proof.
  intros Hr. induction Hr as [| attempt w w' Hr IH Hle Hi].
  - repeat split; try constructor. exists []. repeat split. constructor.
  - destruct IH as (Hd & Hw & Hb & tails & Hlog & Hlen & Hq).
    destruct (reaches_inv _ _ _ _ _ Hr) as (H1 & Hc & _).
    destruct (reaches_inv _ _ _ _ _ (reaches_next _ _ _ _ _ _ Hr Hle Hi))
      as (_ & Hc' & _).
    destruct (turn_detail env url options attempt w)
      as (c & w1 & tail & Hi' & Hlog' & Hd' & Hq' & Hw' & Hb' & _).
    rewrite Hi in Hi'. injection Hi' as <- <-. simpl in Hd', Hw'.
    assert (Hcalls : calls w' = S (calls w)) by lia.
    rewrite Hlog', Hcalls. repeat split.
    + lia.
    + rewrite waits_app, Hw. unfold attemptLog, opening.
      change (waits ([SetTimeout (timeoutMs options);
                      Fetch url (headers options); ClearTimeout] ++ tail))
        with (waits tail).
      rewrite Hw', seq_S, map_app. simpl. f_equal. f_equal.
      unfold backoff. rewrite Hd. f_equal. lia.
    + rewrite bodiesRead_app. apply Forall_app. split; [exact Hb |].
      exact Hb'.
    + exists (tails ++ [tail]). repeat split.
      * rewrite map_app, concat_app, <- Hlog. simpl.
        now rewrite app_nil_r.
      * rewrite length_app. simpl. lia.
      * apply Forall_app. split; [exact Hq |]. now constructor.
Qed.



(** X2.  A call that returns, returns a response whose [ok] flag is set: the
    one the last transport invocation settled to.  Its body was not read by
    the call. *)
Theorem returned_response_is_ok (res : Response) (wf : World) :
  fetchRetrier env url options = Some (Normal res, wf) ->
  ok res = true
  /\ (1 <= calls wf)%nat
  /\ fetch env (calls wf - 1) url (headers options) = Fulfilled res
  /\ ~ In res (bodiesRead (log wf)).
Proof.
  intros Hcall.
  destruct (Z_lt_le_dec (retries options) 1) as [Hlt | Hle];
    [rewrite (no_attempt Hlt) in Hcall; discriminate |].
  destruct (ends_in_a_turn Hle)
    as (attempt & w & c & wf' & r & Hr & Hat & Hi & Hs & Hres).
  rewrite Hres in Hcall. injection Hcall as -> ->.
  destruct c as [[res' |] | err]; try discriminate.
  injection Hs as ->.
  destruct (reaches_detail _ _ Hr) as (_ & _ & Hb & _).
  destruct (turn_shape env url options attempt w)
    as (c1 & w1 & tail & Hi1 & _ & Hcalls & _).
  destruct (turn_detail env url options attempt w)
    as (c2 & w2 & tail2 & Hi2 & Hlog & _ & _ & _ & Hb2 & Hret & _).
  rewrite Hi in Hi1, Hi2. injection Hi1 as <- <-. injection Hi2 as <- <-.
  destruct (Hret res eq_refl) as [Hok Hf].
  rewrite Hcalls. replace (S (calls w) - 1)%nat with (calls w) by lia.
  repeat split; [exact Hok | lia | exact Hf |].
  rewrite Hlog, bodiesRead_app. intros Hin.
  apply in_app_or in Hin. rewrite Forall_forall in Hb, Hb2.
  destruct Hin as [Hin | Hin]; [apply Hb in Hin | apply Hb2 in Hin];
    congruence.
Qed.

(** X3.  The history of every call is a sequence of whole attempts, one per
    transport invocation.  Each attempt arms the timer with [timeoutMs],
    invokes the transport with the [url] and [headers] of the call and
    clears the timer at once; nothing else arms a timer or invokes the
    transport, so the body read, the retry predicate and the delay all run
    with the timer cleared. *)
Theorem history_is_whole_attempts :
  exists c wf tails,
    fetchRetrier env url options = Some (c, wf)
    /\ log wf = concat (map (attemptLog url options) tails)
    /\ length tails = calls wf
    /\ Forall (fun t => forallb quiet t = true) tails.
Proof.
  destruct (Z_lt_le_dec (retries options) 1) as [Hlt | Hle].
  - exists (Throw (NewError "Unreachable")), start, [].
    split; [now apply no_attempt |]. repeat split. constructor.
  - destruct (ends_in_a_turn Hle)
      as (attempt & w & c & wf & r & Hr & Hat & Hi & Hs & Hres).
    destruct (reaches_detail _ _ Hr) as (_ & _ & _ & tails & Hl & Hlen & Hq).
    destruct (turn_shape env url options attempt w)
      as (c1 & w1 & tail & Hi1 & _ & Hcalls & _).
    destruct (turn_detail env url options attempt w)
      as (c2 & w2 & tail2 & Hi2 & Hlog & _ & Hq2 & _).
    rewrite Hi in Hi1, Hi2. injection Hi1 as <- <-. injection Hi2 as <- <-.
    exists r, wf, (tails ++ [tail2]). split; [exact Hres |]. repeat split.
    + rewrite Hlog, map_app, concat_app, <- Hl. simpl. now rewrite app_nil_r.
    + rewrite length_app, Hcalls. simpl. lia.
    + apply Forall_app. split; [exact Hq |]. now constructor.
Qed.




(** X6.  A call that throws before its budget is used up does so for one of
    two reasons only: a collaborator raised a value the [catch] clause does
    not retry on, or the retry predicate rejected the response of the last
    transport invocation. *)
Theorem early_failure_is_final (err : Thrown) (wf : World) :
  fetchRetrier env url options = Some (Throw err, wf) ->
  Z.of_nat (calls wf) < retries options ->
  (exists e, err = Caught e /\ transient e = false)
  \/ (exists res,
        fetch env (calls wf - 1) url (headers options) = Fulfilled res
        /\ err = NewError ("Non-retriable HTTP error: "
                           ++ showZ (status res))).
Proof.
  intros Hcall Hearly.
  destruct (Z_lt_le_dec (retries options) 1) as [Hlt | Hle]; [lia |].
  destruct (ends_in_a_turn Hle)
    as (attempt & w & c & wf' & r & Hr & Hat & Hi & Hs & Hres).
  rewrite Hres in Hcall. injection Hcall as -> ->.
  destruct c as [[res' |] | err']; try discriminate.
  injection Hs as ->.
  destruct (reaches_inv _ _ _ _ _ Hr) as (H1 & Hc & _).
  destruct (turn_shape env url options attempt w)
    as (c1 & w1 & tail & Hi1 & _ & Hcalls & _).
  destruct (turn_detail env url options attempt w)
    as (c2 & w2 & tail2 & Hi2 & _ & _ & _ & _ & _ & _ & Hthrow).
  rewrite Hi in Hi1, Hi2. injection Hi1 as <- <-. injection Hi2 as <- <-.
  rewrite Hcalls in *. replace (S (calls w) - 1)%nat with (calls w) by lia.
  apply (Hthrow err eq_refl). lia.
Qed.

End Runs.

(** ** More about single attempts *)

Lemma defaultShouldRetry_true (res : Response) :
  defaultShouldRetry res = true
  <-> In (status res) [429; 500; 502; 503; 504].
Proof.
  unfold defaultShouldRetry. rewrite existsb_exists. split.
  - intros (x & Hin & Heq). apply Z.eqb_eq in Heq. now subst x.
  - intros Hin. exists (status res). split; [exact Hin | apply Z.eqb_refl].
Qed.

Section Policy.

Variables (env : Env) (url : string) (options : RequestOptions).

(** X7.  With [retries = N >= 1], when each of the first [N] invocations of
    the transport raises an [AbortError]-named [Error] or a [TypeError], the
    call invokes the transport exactly [N] times, waits [N - 1] delays, and
    throws the very value the last invocation raised. *)
Theorem transient_until_exhausted (last : Exn) :
  1 <= retries options ->
  (forall k, (k < Z.to_nat (retries options))%nat ->
             exists e, transientAt env url options k e) ->
  fetch env (Z.to_nat (retries options) - 1) url (headers options)
  = Rejected last ->
  exists wf,
    fetchRetrier env url options = Some (Throw (Caught last), wf)
    /\ calls wf = Z.to_nat (retries options)
    /\ invocations (log wf) = Z.to_nat (retries options)
    /\ delays (log wf) = (Z.to_nat (retries options) - 1)%nat.
Proof.
  intros Hn Hall Hlast.
  assert (Hgen : forall n attempt w,
            n = Z.to_nat (retries options - attempt) ->
            reaches env url options attempt w ->
            attempt <= retries options ->
            exists wf,
              fetchRetrier env url options = Some (Throw (Caught last), wf)
              /\ calls wf = Z.to_nat (retries options)
              /\ invocations (log wf) = Z.to_nat (retries options)
              /\ delays (log wf) = (Z.to_nat (retries options) - 1)%nat).
  { induction n as [| n IH]; intros attempt w Hm Hr Hle;
      destruct (reaches_inv _ _ _ _ _ Hr) as (H1 & Hc & Hi & Hd & _);
      destruct (Hall (calls w)) as (e & Hf & Htr); try lia.
    - assert (Heq : attempt = retries options) by lia.
      assert (e = last) as ->
        by (replace (calls w) with (Z.to_nat (retries options) - 1)%nat
              in Hf by lia; congruence).
      eexists. split.
      + rewrite (reaches_result _ _ _ _ _ Hr).
        apply resume_throw; [exact Hle |].
        rewrite (turn_rejected _ _ _ _ _ last Hf).
        now apply catch_transient_last.
      + unfold after. simpl calls. simpl log.
        rewrite !invocations_app, !delays_app.
        unfold invocations, delays in *. simpl. lia.
    - eapply (IH (attempt + 1)); [lia | | lia].
      eapply reaches_next; [exact Hr | exact Hle |].
      rewrite (turn_rejected _ _ _ _ _ e Hf).
      apply catch_transient_more; [exact Htr | lia]. }
  apply (Hgen _ 1 start eq_refl); [apply reaches_start | lia].
Qed.

(** X8.  At any attempt the call reaches, a value raised by the transport
    that is neither an [Error] named [AbortError] nor a [TypeError] ends the
    call at once, however many attempts remain: the timer is cleared and the
    very value is thrown, without a delay.  A value that is not an instance
    of [Error] is such a value whatever its [name]. *)
Theorem fatal_failure_never_retried (attempt : Z) (w : World) (e : Exn) :
  reaches env url options attempt w ->
  attempt <= retries options ->
  fetch env (calls w) url (headers options) = Rejected e ->
  proto e = NotAnError
  \/ (isAbortError (Caught e) = false /\ isTypeError (Caught e) = false) ->
  fetchRetrier env url options
  = Some (Throw (Caught e), after w 1 0 (opening url options)).
Proof.
  intros Hr Hle Hf Hcls.
  assert (Hfatal : transient e = false).
  { unfold transient, isAbortError, isTypeError, instanceofError,
      instanceofTypeError. simpl.
    destruct Hcls as [-> | [Ha Ht]]; [reflexivity |].
    unfold isAbortError, isTypeError, instanceofError,
      instanceofTypeError in Ha, Ht. simpl in Ha, Ht.
    now rewrite Ha, Ht. }
  rewrite (reaches_result _ _ _ _ _ Hr).
  apply resume_throw; [exact Hle |].
  rewrite (turn_rejected _ _ _ _ _ e Hf).
  rewrite (catch_fatal env options attempt e _ Hfatal).
  unfold after, opening. tidy_log. reflexivity.
Qed.

(** X11.  When [shouldRetry] is absent, a response that is not ok and whose
    body can be read is judged by its status alone: for a status among 429,
    500, 502, 503 and 504 the call waits and goes on to the next attempt
    while attempts remain, and throws [Error("HTTP <status>")] at the last
    attempt; for any other status it throws
    [Error("Non-retriable HTTP error: <status>")] at once. *)
Theorem default_policy_by_status (attempt : Z) (w : World) (res : Response)
    (body : string) :
  reaches env url options attempt w ->
  attempt <= retries options ->
  shouldRetry options = None ->
  fetch env (calls w) url (headers options) = Fulfilled res ->
  ok res = false ->
  text res = Fulfilled body ->
  let seen := opening url options ++ [Text res; ShouldRetry res body] in
  let ms := jitter (random env (draws w)) (baseBackoffMs options) attempt in
  (In (status res) [429; 500; 502; 503; 504] ->
   (attempt < retries options ->
    reaches env url options (attempt + 1) (after w 1 1 (seen ++ [Wait ms])))
   /\ (attempt = retries options ->
       fetchRetrier env url options
       = Some (Throw (NewError ("HTTP " ++ showZ (status res))),
               after w 1 0 (seen ++ [ClearTimeout]))))
  /\ (~ In (status res) [429; 500; 502; 503; 504] ->
      fetchRetrier env url options
      = Some (Throw (NewError ("Non-retriable HTTP error: "
                               ++ showZ (status res))),
              after w 1 0 (seen ++ [ClearTimeout]))).
Proof.
  intros Hr Hle Hnone Hf Hok Ht seen ms.
  assert (Hp : shouldRetryOf options res body
               = Fulfilled (defaultShouldRetry res))
    by (unfold shouldRetryOf; now rewrite Hnone).
  split.
  - intros Hin. apply defaultShouldRetry_true in Hin. rewrite Hin in Hp.
    split.
    + intros Hlt. eapply reaches_next; [exact Hr | exact Hle |].
      rewrite (turn_retriable_more env url options attempt w res body
                 Hf Hok Ht Hp ltac:(lia)).
      unfold seen, ms, after, opening. tidy_log. reflexivity.
    + intros Heq. rewrite (reaches_result _ _ _ _ _ Hr).
      apply resume_throw; [exact Hle |].
      rewrite (turn_retriable_last env url options attempt w res body
                 Hf Hok Ht Hp Heq).
      unfold seen, after, opening. tidy_log. reflexivity.
  - intros Hnin.
    assert (Hd : defaultShouldRetry res = false).
    { destruct (defaultShouldRetry res) eqn:Hd; [| reflexivity].
      now apply defaultShouldRetry_true in Hd. }
    rewrite Hd in Hp. rewrite (reaches_result _ _ _ _ _ Hr).
    apply resume_throw; [exact Hle |].
    rewrite (turn_not_retriable env url options attempt w res body
               Hf Hok Ht Hp).
    unfold seen, after, opening. tidy_log. reflexivity.
Qed.

(** At the last attempt the [catch] clause throws whatever it is given. *)
Lemma catch_last (attempt : Z) (e : Exn) (w1 : World) :
  attempt = retries options ->
  catchBlock env options attempt (Caught e) w1
  = (Throw (Caught e), after w1 0 0 [ClearTimeout]).
Proof.
  intros Heq. destruct (transient e) eqn:Htr.
  - now apply catch_transient_last.
  - now apply catch_fatal.
Qed.

(** X12.  At the last attempt nothing is retried: whatever the transport
    raises, and whatever the body read or the retry predicate raises on a
    response that is not ok, is thrown as it is.  In the second case the
    status of the response is not reported. *)
Theorem last_attempt_throws_what_was_raised (attempt : Z) (w : World)
    (e : Exn) :
  reaches env url options attempt w ->
  attempt = retries options ->
  (fetch env (calls w) url (headers options) = Rejected e ->
   fetchRetrier env url options
   = Some (Throw (Caught e), after w 1 0 (opening url options)))
  /\ (forall res evs,
        fetch env (calls w) url (headers options) = Fulfilled res ->
        ok res = false ->
        raisesAfterFetch options res e evs ->
        fetchRetrier env url options
        = Some (Throw (Caught e),
                after w 1 0 (opening url options ++ evs ++ [ClearTimeout]))).
Proof.
  intros Hr Heq. split.
  - intros Hf. rewrite (reaches_result _ _ _ _ _ Hr).
    apply resume_throw; [lia |].
    rewrite (turn_rejected _ _ _ _ _ e Hf), (catch_last _ _ _ Heq).
    unfold after, opening. tidy_log. reflexivity.
  - intros res evs Hf Hok Hraise. rewrite (reaches_result _ _ _ _ _ Hr).
    apply resume_throw; [lia |].
    assert (Hturn : iteration env url options attempt w
                    = catchBlock env options attempt (Caught e)
                        (after w 1 0 (opening url options ++ evs))).
    { destruct Hraise as [Ht | body Ht Hp].
      - now apply turn_text_rejected.
      - now apply turn_predicate_raised. }
    rewrite Hturn, (catch_last _ _ _ Heq).
    unfold after, opening. tidy_log. reflexivity.
Qed.

End Policy.

(** ** The errors the executor builds *)



(** ** Exponential growth of the delay *)


(** ** The further properties at sample inputs *)

Lemma returned_response_is_ok_witness :
  ok okRes = true
  /\ (1 <= 1)%nat
  /\ fetch (always okRes) (1 - 1) exampleUrl (headers baseOptions)
     = Fulfilled okRes
  /\ ~ In okRes
         (bodiesRead [SetTimeout 5000; Fetch exampleUrl None; ClearTimeout]).
Proof.
  exact (returned_response_is_ok (always okRes) exampleUrl baseOptions okRes
           (mkWorld 1 0 [SetTimeout 5000; Fetch exampleUrl None; ClearTimeout])
           eq_refl).
Defined.


Lemma early_failure_is_final_witness :
  (exists e, NewError "Non-retriable HTTP error: 400" = Caught e
             /\ transient e = false)
  \/ (exists res,
        fetch (always badRes) (1 - 1) exampleUrl (headers baseOptions)
        = Fulfilled res
        /\ NewError "Non-retriable HTTP error: 400"
           = NewError ("Non-retriable HTTP error: " ++ showZ (status res))).
Proof.
  refine (early_failure_is_final (always badRes) exampleUrl baseOptions
            (NewError "Non-retriable HTTP error: 400")
            (mkWorld 1 0
               [SetTimeout 5000; Fetch exampleUrl None; ClearTimeout;
                Text badRes; ShouldRetry badRes "bad request"; ClearTimeout])
            eq_refl _).
  simpl. lia.
Defined.

Lemma transient_until_exhausted_witness :
  exists wf,
    fetchRetrier (failing networkError) exampleUrl twoAttempts
    = Some (Throw (Caught networkError), wf)
    /\ calls wf = 2%nat
    /\ invocations (log wf) = 2%nat
    /\ delays (log wf) = 1%nat.
Proof.
  refine (transient_until_exhausted (failing networkError) exampleUrl
            twoAttempts networkError _ _ _);
    [simpl; lia
    | intros k _; exists networkError; split; reflexivity
    | reflexivity].
Defined.

(** The second attempt of a call on [flaky]: the value is named
    [AbortError] but is not an [Error], and is thrown with one attempt
    left. *)
Lemma fatal_failure_never_retried_witness :
  fetchRetrier flaky exampleUrl baseOptions
  = Some (Throw (Caught plainAbort),
          mkWorld 2 1
            [SetTimeout 5000; Fetch exampleUrl None; ClearTimeout; Wait 10;
             SetTimeout 5000; Fetch exampleUrl None; ClearTimeout]).
Proof.
  refine (fatal_failure_never_retried flaky exampleUrl baseOptions (1 + 1)
            (mkWorld 1 1
               [SetTimeout 5000; Fetch exampleUrl None; ClearTimeout; Wait 10])
            plainAbort _ _ _ _);
    [ apply (reaches_next flaky exampleUrl baseOptions 1 start);
        [apply reaches_start | simpl; lia | reflexivity]
    | simpl; lia
    | reflexivity
    | left; reflexivity ].
Defined.

Lemma default_policy_by_status_witness :
  reaches (always retryRes) exampleUrl baseOptions (1 + 1)
    (mkWorld 1 1
       [SetTimeout 5000; Fetch exampleUrl None; ClearTimeout;
        Text retryRes; ShouldRetry retryRes "unavailable"; Wait 10]).
Proof.
  refine (proj1 (proj1 (default_policy_by_status (always retryRes) exampleUrl
                          baseOptions 1 start retryRes "unavailable"
                          _ _ _ _ _ _) _) _);
    [ apply reaches_start | simpl; lia | reflexivity | reflexivity
    | reflexivity | reflexivity | simpl; tauto | simpl; lia ].
Defined.

Lemma last_attempt_throws_what_was_raised_witness :
  fetchRetrier (always brokenBody) exampleUrl oneAttempt
  = Some (Throw (Caught networkError),
          mkWorld 1 0
            [SetTimeout 5000; Fetch exampleUrl None; ClearTimeout;
             Text brokenBody; ClearTimeout]).
Proof.
  refine (proj2 (last_attempt_throws_what_was_raised (always brokenBody)
                   exampleUrl oneAttempt 1 start networkError _ _)
            brokenBody [Text brokenBody] _ _ _);
    [ apply reaches_start | reflexivity | reflexivity | reflexivity
    | apply text_raises; reflexivity ].
Defined.
